(** * Verification of the account pool provider (client/src/providers/accounts.tsx)

    A shallow embedding of the pool provider: cost estimation
    ([calculateCosts]), the batch submitter with its retry loop
    ([_createAccountBatch]), the provisioning loop ([_create]) and the React
    provider's state machine ([create], [close], [deactivate] and the
    cost-computation effect).

    JavaScript numbers are modelled as exact numbers: [Z] for lamport amounts,
    [nat] for counts and indices, [Q] for the quotient inside
    [calculateProgrampace].  For an integer parallelization [P >= 1] the
    IEEE quotient [1000 / P / 8] has the same ceiling as the exact one (a
    non-integer [125 / P] is at least [1 / P] away from an integer). *)

From Stdlib Require Import ZArith QArith Qround Lia List String Bool Relations.
Import ListNotations.
Open Scope string_scope.
Open Scope Z_scope.

(* ------------------------------------------------------------------ *)
(** ** Keys, instructions, transactions *)

(** A keypair.  [Fresh n] is the [n]-th keypair drawn by [new Keypair()];
    [FeePayerKey i] is the [i]-th keypair of [getFeePayers]. *)
Inductive Keypair :=
| Fresh (n : nat)
| FeePayerKey (i : nat).

Inductive PublicKey := PK (k : Keypair).

Definition publicKey (k : Keypair) : PublicKey := PK k.

(** [SystemProgram.createAccount] and [SystemProgram.transfer]. *)
Inductive Instruction :=
| CreateAccount (fromPubkey newAccountPubkey : PublicKey) (lamports space : Z)
    (programId : PublicKey)
| Transfer (fromPubkey toPubkey : PublicKey) (lamports : Z).

Definition Transaction := list Instruction.

(** Observable effects: transaction submissions, console output, sleeps. *)
Inductive Event :=
| EvSend (tx : Transaction) (signers : list Keypair)
| EvLog (msg : string)
| EvSleep (ms : nat).

(** Result of an async function: resolved with a value or rejected. *)
Inductive Res (A : Type) :=
| Ok (a : A)
| Err (msg : string).
Arguments Ok {A} a.
Arguments Err {A} msg.

(* ------------------------------------------------------------------ *)
(** ** Cost estimation *)

Record AccountCosts := {
  total : Z;
  feeAccountCost : Z;
  programAccountCost : Z
}.

(** The RPC connection: each query either answers or fails ([None]). *)
Record Connection := {
  getMinimumBalanceForRentExemption : Z -> option Z;
  (** [getRecentBlockhash().feeCalculator.lamportsPerSignature] *)
  lamportsPerSignature : option Z
}.

Definition TX_PER_BYTE : Z := 8.

(** [Math.ceil(1000 / parallelization / TX_PER_BYTE)] *)
Definition calculateProgrampace (parallelization : nat) : Z :=
  Qceiling (inject_Z 1000 / inject_Z (Z.of_nat parallelization)
            / inject_Z TX_PER_BYTE)%Q.

Definition calculateTransactionsPerAccount (programpace : Z) : Z :=
  TX_PER_BYTE * programpace.

Definition calculateCosts (connection : Connection) (parallelization : nat)
  : option AccountCosts :=
  let programpace := calculateProgrampace parallelization in
  match getMinimumBalanceForRentExemption connection programpace with
  | None => None
  | Some programAccountCost =>
    match getMinimumBalanceForRentExemption connection 0 with
    | None => None
    | Some feeAccountRent =>
      match lamportsPerSignature connection with
      | None => None
      | Some signatureFee =>
        let txPerAccount := calculateTransactionsPerAccount programpace in
        let feeAccountCost := txPerAccount * signatureFee + feeAccountRent in
        Some {| feeAccountCost := feeAccountCost;
                programAccountCost := programAccountCost;
                total := Z.of_nat parallelization
                         * (programAccountCost + feeAccountCost) |}
      end
    end
  end.

(** The spec's storage size, [ceil(1000 / P / 8)], as integer arithmetic. *)
Definition storageUnits_spec (P : nat) : Z :=
  (1000 + 8 * Z.of_nat P - 1) / (8 * Z.of_nat P).

(* ------------------------------------------------------------------ *)
(** ** The batch submitter [_createAccountBatch] *)

(** The two instructions [_createAccountBatch] adds for the [i]-th pair. *)
Definition batch_instructions (payer : Keypair) (breakProgramId : PublicKey)
    (costs : AccountCosts) (programpace : Z) (pair : Keypair * Keypair)
  : list Instruction :=
  let '(newProgramAccount, newFeePayer) := pair in
  [ CreateAccount (publicKey payer) (publicKey newProgramAccount)
      (programAccountCost costs) programpace breakProgramId;
    Transfer (publicKey payer) (publicKey newFeePayer) (feeAccountCost costs) ].

(** The transaction built by the [for (let i = 0; i < batchSize; i++)] loop;
    it runs over [newProgram] and [newFeePayers] in step, whose lengths the
    function has just checked to be equal. *)
Definition build_batch_tx (payer : Keypair) (breakProgramId : PublicKey)
    (costs : AccountCosts) (newFeePayers newProgram : list Keypair)
    (programpace : Z) : Transaction :=
  flat_map (batch_instructions payer breakProgramId costs programpace)
           (combine newProgram newFeePayers).

(** Console output of the retry loop: [retries remaining: n]. *)
Definition log_retries (n : nat) : Event :=
  EvLog ("Failed to create , retries remaining: " ++
         match n with 0%nat => "0" | 1%nat => "1" | 2%nat => "2" | _ => "many" end).

(** [while (retries > 0) { try { await sendAndConfirmTransaction(..); break; }
    catch { retries -= 1; if (retries === 0) throw ..; console.error(..) } }].
    [send k] is the outcome of the [k]-th call of [sendAndConfirmTransaction]
    ([true]: confirmed, [false]: it threw). *)
Fixpoint retry_loop (send : nat -> bool) (tx : Transaction) (signers : list Keypair)
    (retries attempt : nat) : list Event * Res unit :=
  match retries with
  | O => ([], Ok tt)
  | S retries' =>
    if send attempt then ([EvSend tx signers], Ok tt)
    else if Nat.eqb retries' 0 then
      ([EvSend tx signers], Err "Couldn't confirm transaction")
    else
      let '(evs, r) := retry_loop send tx signers retries' (S attempt) in
      (EvSend tx signers :: log_retries retries' :: evs, r)
  end.

Definition _createAccountBatch (send : nat -> bool) (breakProgramId : PublicKey)
    (payer : Keypair) (costs : AccountCosts)
    (newFeePayers newProgram : list Keypair) (programpace : Z)
  : list Event * Res unit :=
  let batchSize := List.length newProgram in
  if negb (Nat.eqb batchSize (List.length newFeePayers)) then ([], Err "Internal error")
  else
    let tx := build_batch_tx payer breakProgramId costs newFeePayers newProgram
                programpace in
    retry_loop send tx (payer :: newProgram) 3 0.

(** Number of transaction submissions in a trace. *)
Definition count_sends (evs : list Event) : nat :=
  List.length (filter (fun e => match e with EvSend _ _ => true | _ => false end) evs).

Definition no_sleep (evs : list Event) : Prop :=
  forall ms, ~ In (EvSleep ms) evs.

(* ------------------------------------------------------------------ *)
(** ** The provisioning loop [_create] *)

Record Config := {
  program : list PublicKey;
  feePayerKeypairs : list Keypair;
  accountCapacity : Z
}.

(** Modelled from the spec: [getFeePayers] of [utils], which is not among the
    sources.  The spec says the fee-payer set is re-derived deterministically
    from [parallelization] alone and that a pool holds [parallelization] fee
    payers: here the [i]-th fee payer is [FeePayerKey i], [i < parallelization]. *)
Definition getFeePayers (parallelization : nat) : list Keypair :=
  map FeePayerKey (seq 0 parallelization).

(** [Array(parallelization).fill(0).map(() => new Keypair())]: [seed] is the
    index of the next keypair the key generator hands out. *)
Definition new_keypairs (seed parallelization : nat) : list Keypair :=
  map Fresh (seq seed parallelization).

(** [Array.prototype.slice(start, end)] for [start <= end]; the end is
    clamped to the length. *)
Definition slice {A} (l : list A) (start end_ : nat) : list A :=
  firstn (end_ - start) (skipn start l).

Definition BATCH_SIZE : nat := 5.

(** The arguments of the [_createAccountBatch] calls made by
    [while (accountIndex < parallelization) { ..; accountIndex += BATCH_SIZE }];
    [fuel] bounds the iterations (the loop runs at most [parallelization]
    times). *)
Fixpoint create_loop (fuel parallelization accountIndex : nat)
    (feePayers program : list Keypair) : list (list Keypair * list Keypair) :=
  match fuel with
  | O => []
  | S fuel' =>
    if Nat.ltb accountIndex parallelization then
      (slice feePayers accountIndex (accountIndex + BATCH_SIZE),
       slice program accountIndex (accountIndex + BATCH_SIZE))
      :: create_loop fuel' parallelization (accountIndex + BATCH_SIZE)
           feePayers program
    else []
  end.

Definition create_batches (parallelization : nat) (feePayers program : list Keypair)
  : list (list Keypair * list Keypair) :=
  create_loop parallelization parallelization 0 feePayers program.

(** The batches submitted one after the other; the first rejection aborts
    the run.  [send b k] is the [k]-th submission of batch [b]. *)
Fixpoint run_batches (send : nat -> nat -> bool) (breakProgramId : PublicKey)
    (payer : Keypair) (costs : AccountCosts) (programpace : Z) (b : nat)
    (calls : list (list Keypair * list Keypair)) : list Event * Res unit :=
  match calls with
  | [] => ([], Ok tt)
  | (fp, pa) :: rest =>
    let '(evs, r) := _createAccountBatch (send b) breakProgramId payer costs fp pa
                       programpace in
    match r with
    | Err m => (evs, Err m)
    | Ok _ =>
      let '(evs', r') := run_batches send breakProgramId payer costs programpace
                           (S b) rest in
      (app evs evs', r')
    end
  end.

Definition _create (send : nat -> nat -> bool) (seed : nat)
    (breakProgramId : PublicKey) (payer : Keypair) (costs : AccountCosts)
    (parallelization : nat) : list Event * Res Config :=
  let programpace := calculateProgrampace parallelization in
  let feePayers := getFeePayers parallelization in
  let program := new_keypairs seed parallelization in
  let '(evs, r) := run_batches send breakProgramId payer costs programpace 0
                     (create_batches parallelization feePayers program) in
  match r with
  | Err m => (evs, Err m)
  | Ok _ =>
    let txPerAccount := calculateTransactionsPerAccount programpace in
    (evs, Ok {| accountCapacity := txPerAccount;
                feePayerKeypairs := feePayers;
                program := map publicKey program |})
  end.

(** [_close]: one transaction moving every fee payer's balance back to the
    payer, signed by the payer and all fee payers.  [getBalance] answers a
    balance query or fails; [send] is the outcome of the submission (the two
    error strings stand for whatever the RPC rejects with). *)
Definition _close (getBalance : PublicKey -> option Z) (send : bool)
    (payer : Keypair) (parallelization : nat) : list Event * Res unit :=
  let feePayers := getFeePayers parallelization in
  match fold_right (fun k acc => match getBalance (publicKey k), acc with
                                 | Some b, Some bs => Some (b :: bs)
                                 | _, _ => None
                                 end) (Some []) feePayers with
  | None => ([], Err "getBalance failed")
  | Some balances =>
    let tx := map (fun '(k, b) => Transfer (publicKey k) (publicKey payer) b)
                  (combine feePayers balances) in
    let ev := EvSend tx (payer :: feePayers) in
    if send then ([ev], Ok tt) else ([ev], Err "sendAndConfirmTransaction failed")
  end.

(* ------------------------------------------------------------------ *)
(** ** The provider's state machine

    The React state ([status], [costs], the pool config) and the two refs
    ([creationLock], [calculationCounter]) form one state.  A call of
    [create] or [close] runs synchronously up to its first [await]; it then
    either has thrown, has returned, or has started and is suspended until
    its provisioning (or teardown) settles.  Calls read the state of the
    latest render. *)

Inductive Status := initializing | inactive | creating | closing | active.

Definition Status_eqb (a b : Status) : bool :=
  match a, b with
  | initializing, initializing | inactive, inactive | creating, creating
  | closing, closing | active, active => true
  | _, _ => false
  end.

Record State := {
  status : Status;
  costs : option AccountCosts;
  config : option Config;
  creationLock : bool;
  calculationCounter : nat
}.

Definition set_status (s : Status) (st : State) : State :=
  {| status := s; costs := costs st; config := config st;
     creationLock := creationLock st; calculationCounter := calculationCounter st |}.
Definition set_costs (c : option AccountCosts) (st : State) : State :=
  {| status := status st; costs := c; config := config st;
     creationLock := creationLock st; calculationCounter := calculationCounter st |}.
Definition set_config (c : option Config) (st : State) : State :=
  {| status := status st; costs := costs st; config := c;
     creationLock := creationLock st; calculationCounter := calculationCounter st |}.
Definition set_lock (b : bool) (st : State) : State :=
  {| status := status st; costs := costs st; config := config st;
     creationLock := b; calculationCounter := calculationCounter st |}.
Definition set_counter (n : nat) (st : State) : State :=
  {| status := status st; costs := costs st; config := config st;
     creationLock := creationLock st; calculationCounter := n |}.

(** What the provider reads from its hooks. *)
Record Env := {
  connection : option Connection;
  wallet : option Keypair;
  breakProgramId : option PublicKey;
  parallelization : nat
}.

(** The synchronous part of a call: it threw, it logged a warning and
    returned, it returned silently, or it started with the given state. *)
Inductive Outcome :=
| Threw (msg : string)
| Warned (msg : string)
| Returned
| Started (st : State).

Definition create_call (env : Env) (st : State) : Outcome :=
  match connection env with
  | None => Threw "Invalid connection"
  | Some _ =>
    match breakProgramId env with
    | None => Threw "Missing break program id"
    | Some _ =>
      match wallet env with
      | None => Threw "Missing wallet"
      | Some _ =>
        match costs st with
        | None => Threw "Calculating costs"
        | Some _ =>
          if creationLock st then Warned "Account creation is locked"
          else if Status_eqb (status st) inactive then
            Started (set_status creating (set_lock true st))
          else Warned "Account creation requires inactive status"
        end
      end
    end
  end.

(** [create] after [_create] settled: the [catch] logs the error
    ([console.error("Failed to create ", err)]) and resets, the [finally]
    releases the lock; the returned promise resolves.  The result is the new
    state, the promise's outcome and the console output. *)
Definition create_settle (r : Res Config) (st : State) : State * (Res unit * list Event) :=
  match r with
  | Ok cfg => (set_lock false (set_status active (set_config (Some cfg) st)), (Ok tt, []))
  | Err m => (set_lock false (set_status inactive (set_config None st)),
              (Ok tt, [EvLog ("Failed to create " ++ m)]))
  end.

Definition close_call (env : Env) (st : State) : Outcome :=
  match connection env with
  | None => Threw "Can't close  until connection is valid"
  | Some _ =>
    match wallet env with
    | None => Threw "Can't create  if wallet is not setup"
    | Some _ =>
      if creationLock st then Warned "Account closing is locked"
      else if Status_eqb (status st) inactive then
        Started (set_status closing (set_lock true st))
      else Returned
    end
  end.

(** [close] after [_close] settled: [try { await _close(..) } finally {..}]
    with no [catch], so a rejection propagates to the caller. *)
Definition close_settle (r : Res unit) (st : State) : State * Res unit :=
  (set_lock false (set_status inactive st), r).

Definition deactivate (st : State) : State :=
  if creationLock st then st else set_status inactive st.

(** The cost effect, run on mount and whenever [connection] or
    [parallelization] changes: it bumps the counter, resets status and
    config, and (with a connection) starts a computation tagged with the
    new counter value. *)
Definition cost_effect (env : Env) (st : State) : State * option nat :=
  let st1 := set_config None (set_status initializing
               (set_counter (S (calculationCounter st)) st)) in
  match connection env with
  | None => (st1, None)
  | Some _ => (st1, Some (S (calculationCounter st)))
  end.

(** A computation started with [savedCounter] resolving with [c]. (A failing
    attempt sleeps and retries without touching the state.) *)
Definition cost_settle (savedCounter : nat) (c : AccountCosts) (st : State) : State :=
  if Nat.eqb (calculationCounter st) savedCounter then
    set_status (if Status_eqb (status st) initializing then inactive else status st)
      (set_costs (Some c) st)
  else st.

(** Operations in flight. *)
Inductive Pending := PCreate | PClose | PCost (savedCounter : nat).

Definition Pending_eqb (a b : Pending) : bool :=
  match a, b with
  | PCreate, PCreate | PClose, PClose => true
  | PCost m, PCost n => Nat.eqb m n
  | _, _ => false
  end.

Fixpoint remove_one (p : Pending) (l : list Pending) : list Pending :=
  match l with
  | [] => []
  | q :: l' => if Pending_eqb p q then l' else q :: remove_one p l'
  end.

Record World := { w_env : Env; w_st : State; w_pending : list Pending }.

Definition initial_state : State :=
  {| status := initializing; costs := None; config := None;
     creationLock := false; calculationCounter := 0 |}.

Definition initial_world (env : Env) : World :=
  {| w_env := env; w_st := initial_state; w_pending := [] |}.

Inductive step : World -> World -> Prop :=
| step_create_start env st ps st' :
    create_call env st = Started st' ->
    step {| w_env := env; w_st := st; w_pending := ps |}
         {| w_env := env; w_st := st'; w_pending := PCreate :: ps |}
| step_create_settle env st ps r :
    In PCreate ps ->
    step {| w_env := env; w_st := st; w_pending := ps |}
         {| w_env := env; w_st := fst (create_settle r st);
            w_pending := remove_one PCreate ps |}
| step_close_start env st ps st' :
    close_call env st = Started st' ->
    step {| w_env := env; w_st := st; w_pending := ps |}
         {| w_env := env; w_st := st'; w_pending := PClose :: ps |}
| step_close_settle env st ps r :
    In PClose ps ->
    step {| w_env := env; w_st := st; w_pending := ps |}
         {| w_env := env; w_st := fst (close_settle r st);
            w_pending := remove_one PClose ps |}
| step_deactivate env st ps :
    step {| w_env := env; w_st := st; w_pending := ps |}
         {| w_env := env; w_st := deactivate st; w_pending := ps |}
| step_effect env env' st ps :
    step {| w_env := env; w_st := st; w_pending := ps |}
         {| w_env := env'; w_st := fst (cost_effect env' st);
            w_pending := match snd (cost_effect env' st) with
                         | Some g => PCost g :: ps
                         | None => ps
                         end |}
| step_env env st ps w' p' :
    (** wallet or server config changes: no effect runs *)
    step {| w_env := env; w_st := st; w_pending := ps |}
         {| w_env := {| connection := connection env; wallet := w';
                        breakProgramId := p'; parallelization := parallelization env |};
            w_st := st; w_pending := ps |}
| step_cost_settle env st ps g c :
    In (PCost g) ps ->
    step {| w_env := env; w_st := st; w_pending := ps |}
         {| w_env := env; w_st := cost_settle g c st;
            w_pending := remove_one (PCost g) ps |}.

Definition reachable (env0 : Env) (w : World) : Prop :=
  clos_refl_trans World step (initial_world env0) w.

Definition count_ops (ps : list Pending) : nat :=
  List.length (filter (fun p => match p with PCost _ => false | _ => true end) ps).

(* ------------------------------------------------------------------ *)
(** ** Batch indices and concrete inputs *)

(** A devnet-like connection: rent [890880 + 6960 * bytes], fee [5000]. *)
Definition sample_connection : Connection := {|
  getMinimumBalanceForRentExemption := fun n => Some (890880 + 6960 * n);
  lamportsPerSignature := Some 5000
|}.

Definition batch_count (P : nat) : nat := (P + 4) / 5.

Definition batch_at (fp pa : list Keypair) (i : nat) : list Keypair * list Keypair :=
  (slice fp (5 * i) (5 * i + 5), slice pa (5 * i) (5 * i + 5)).

Definition demo_costs : AccountCosts :=
  {| feeAccountCost := 256 * 5000 + 890880;
     programAccountCost := 890880 + 6960 * 32;
     total := 4 * ((890880 + 6960 * 32) + (256 * 5000 + 890880)) |}.

(** A provider whose server config has not delivered the program id. *)
Definition env_noprog : Env :=
  {| connection := Some sample_connection; wallet := Some (Fresh 100);
     breakProgramId := None; parallelization := 4 |}.

Definition env_ok : Env :=
  {| connection := Some sample_connection; wallet := Some (Fresh 100);
     breakProgramId := Some (PK (Fresh 99)); parallelization := 4 |}.

(** Costs known, status [inactive], nothing in flight. *)
Definition idle_world (env : Env) : World :=
  {| w_env := env;
     w_st := {| status := inactive; costs := Some demo_costs; config := None;
                creationLock := false; calculationCounter := 1 |};
     w_pending := [] |}.

(** A [close] in flight. *)
Definition closing_world (env : Env) : World :=
  {| w_env := env;
     w_st := {| status := closing; costs := Some demo_costs; config := None;
                creationLock := true; calculationCounter := 1 |};
     w_pending := [PClose] |}.

(** A [create] in flight. *)
Definition creating_world (env : Env) : World :=
  {| w_env := env;
     w_st := {| status := creating; costs := Some demo_costs; config := None;
                creationLock := true; calculationCounter := 1 |};
     w_pending := [PCreate] |}.

Definition creating_state : State :=
  {| status := creating; costs := Some demo_costs; config := None;
     creationLock := true; calculationCounter := 1 |}.

(** The parallelization changes while generation 1 is in flight. *)
Definition env_ok8 : Env :=
  {| connection := Some sample_connection; wallet := Some (Fresh 100);
     breakProgramId := Some (PK (Fresh 99)); parallelization := 8 |}.

(* ------------------------------------------------------------------ *)
(** ** Lamport accounting and in-flight bookkeeping *)

(** Lamports an instruction moves out of its [fromPubkey]. *)
Definition instr_lamports (i : Instruction) : Z :=
  match i with
  | CreateAccount _ _ lamports _ _ => lamports
  | Transfer _ _ lamports => lamports
  end.

Definition tx_lamports (tx : Transaction) : Z :=
  fold_right (fun i acc => instr_lamports i + acc) 0 tx.

(** The transactions [_create] builds, one per batch. *)
Definition batch_txs (payer : Keypair) (breakProgramId : PublicKey)
    (costs : AccountCosts) (programpace : Z)
    (calls : list (list Keypair * list Keypair)) : list Transaction :=
  map (fun call => build_batch_tx payer breakProgramId costs (fst call) (snd call)
                     programpace) calls.

(** The balance [_close] reads for a key, when the query answers. *)
Definition balance_of (getBalance : PublicKey -> option Z) (k : Keypair) : Z :=
  match getBalance (publicKey k) with Some b => b | None => 0 end.

(** Cost computations in flight for generation [n]. *)
Definition count_cost (n : nat) (ps : list Pending) : nat :=
  List.length (filter (Pending_eqb (PCost n)) ps).

(** The invariant on cost computations in flight. *)
Definition cost_inv (w : World) : Prop :=
  (forall g, In (PCost g) (w_pending w) -> (g <= calculationCounter (w_st w))%nat) /\
  (count_cost (calculationCounter (w_st w)) (w_pending w) <= 1)%nat.

(* ================================================================== *)
(** * Theorems *)

Lemma Qceiling_inject_div (a : Z) (b : positive) :
  Qceiling (inject_Z a / inject_Z (Z.pos b)) = - ((- a) / Z.pos b).
Proof.
  unfold Qceiling, Qfloor, Qdiv, Qinv, Qmult, Qopp, inject_Z; cbn -[Z.div].
  now rewrite Z.mul_1_r.
Qed.

Lemma Z_neg_div_neg (a b : Z) : 0 < b -> - ((- a) / b) = (a + b - 1) / b.
Proof.
  intros Hb.
  pose proof (Z.div_mod (- a) b ltac:(lia)) as E1.
  pose proof (Z.mod_pos_bound (- a) b Hb) as B1.
  pose proof (Z.div_mod (a + b - 1) b ltac:(lia)) as E2.
  pose proof (Z.mod_pos_bound (a + b - 1) b Hb) as B2.
  set (q1 := (- a) / b) in *. set (q2 := (a + b - 1) / b) in *.
  set (r1 := (- a) mod b) in *. set (r2 := (a + b - 1) mod b) in *.
  assert (b * (- q1 - q2) = r1 + r2 + 1 - b) by lia.
  assert (- q1 - q2 = 0) by nia.
  lia.
Qed.

Lemma calculateProgrampace_eq (P : nat) :
  (1 <= P)%nat -> calculateProgrampace P = storageUnits_spec P.
Proof.
  intros HP.
  unfold calculateProgrampace, storageUnits_spec, TX_PER_BYTE.
  destruct (Z.of_nat P) as [|p|p] eqn:EP; [lia| |lia].
  rewrite <- Z_neg_div_neg by lia.
  change (8 * Z.pos p) with (Z.pos (8 * p)).
  rewrite <- Qceiling_inject_div.
  apply Qceiling_comp.
  unfold Qdiv, Qeq; simpl. lia.
Qed.

(** C1: for every [P >= 1], the program account size is [ceil(1000 / P / 8)],
    the per-account transaction capacity is [8] times that size, and
    [calculateCosts] resolves exactly when the three ledger queries answer,
    with [programAccountCost] the rent-exempt minimum for the storage size,
    [feeAccountCost = txPerAccount * signatureFee + rent(0)] and
    [total = P * (programAccountCost + feeAccountCost)]; for [P = 4] the size
    is [32] and the capacity [256]. *)
Theorem calculateCosts_correct (connection : Connection) (P : nat) (c : AccountCosts) :
  (1 <= P)%nat ->
  calculateProgrampace P = storageUnits_spec P /\
  calculateTransactionsPerAccount (calculateProgrampace P) = 8 * storageUnits_spec P /\
  (calculateCosts connection P = Some c <->
   exists rentStorage rent0 signatureFee,
     getMinimumBalanceForRentExemption connection (storageUnits_spec P) = Some rentStorage /\
     getMinimumBalanceForRentExemption connection 0 = Some rent0 /\
     lamportsPerSignature connection = Some signatureFee /\
     programAccountCost c = rentStorage /\
     feeAccountCost c = 8 * storageUnits_spec P * signatureFee + rent0 /\
     total c = Z.of_nat P * (programAccountCost c + feeAccountCost c)) /\
  calculateProgrampace 4 = 32 /\
  calculateTransactionsPerAccount (calculateProgrampace 4) = 256.
Proof.
  intros HP.
  pose proof (calculateProgrampace_eq P HP) as Hs.
  split; [exact Hs|]. split.
  { unfold calculateTransactionsPerAccount, TX_PER_BYTE. now rewrite Hs. }
  split; [|split; reflexivity].
  unfold calculateCosts, calculateTransactionsPerAccount, TX_PER_BYTE.
  rewrite Hs. split.
  - destruct (getMinimumBalanceForRentExemption connection (storageUnits_spec P))
      as [a|] eqn:Ea; [|discriminate].
    destruct (getMinimumBalanceForRentExemption connection 0) as [b|] eqn:Eb;
      [|discriminate].
    destruct (lamportsPerSignature connection) as [f|] eqn:Ef; [|discriminate].
    intros H; injection H as <-.
    exists a, b, f; simpl; repeat split; reflexivity.
  - intros (a & b & f & Ea & Eb & Ef & Hp & Hf & Ht).
    rewrite Ea, Eb, Ef. f_equal.
    destruct c as [t fc pc]; simpl in *; subst. reflexivity.
Qed.

Lemma calculateCosts_correct_witness :
  (1 <= 4)%nat /\
  calculateCosts sample_connection 4 =
    Some {| feeAccountCost := 256 * 5000 + 890880;
            programAccountCost := 890880 + 6960 * 32;
            total := 4 * ((890880 + 6960 * 32) + (256 * 5000 + 890880)) |} /\
  storageUnits_spec 4 = 32.
Proof.
  split; [lia|].
  destruct (calculateCosts_correct sample_connection 4
              {| feeAccountCost := 256 * 5000 + 890880;
                 programAccountCost := 890880 + 6960 * 32;
                 total := 4 * ((890880 + 6960 * 32) + (256 * 5000 + 890880)) |}
              ltac:(lia)) as (Hs & _ & Hiff & _).
  split.
  - apply Hiff. exists (890880 + 6960 * 32), 890880, 5000.
    rewrite <- Hs. repeat split; reflexivity.
  - rewrite <- Hs. reflexivity.
Defined.

(** C4: for a well-formed batch (as many fee payers as program accounts),
    a [sendAndConfirmTransaction] that always fails is called exactly 3
    times, with nothing but console output between the calls (no sleep),
    after which [_createAccountBatch] rejects with "Couldn't confirm
    transaction" and returns; if the [k]-th call ([k < 3]) is the first to
    succeed, exactly [k + 1] calls are made and the batch resolves. *)
Theorem createAccountBatch_retries (send : nat -> bool) (breakProgramId : PublicKey)
    (payer : Keypair) (costs : AccountCosts) (newFeePayers newProgram : list Keypair)
    (programpace : Z) :
  List.length newFeePayers = List.length newProgram ->
  let tx := build_batch_tx payer breakProgramId costs newFeePayers newProgram
              programpace in
  let signers := payer :: newProgram in
  ((forall k, send k = false) ->
   _createAccountBatch send breakProgramId payer costs newFeePayers newProgram
     programpace =
   ([EvSend tx signers; log_retries 2; EvSend tx signers; log_retries 1;
     EvSend tx signers], Err "Couldn't confirm transaction")) /\
  (forall k, k < 3 -> send k = true -> (forall j, j < k -> send j = false) ->
   let '(evs, r) := _createAccountBatch send breakProgramId payer costs
                      newFeePayers newProgram programpace in
   r = Ok tt /\ count_sends evs = S k /\ no_sleep evs)%nat.
Proof.
  intros Hlen tx signers.
  unfold _createAccountBatch. rewrite Hlen, Nat.eqb_refl. simpl negb. cbv iota.
  split.
  - intros Hfail. simpl. rewrite !Hfail. reflexivity.
  - intros k Hk Hok Hbefore.
    destruct k as [|[|[|k]]]; [| | |lia]; simpl.
    + rewrite Hok. repeat split. intros ms [E|[]]; discriminate.
    + rewrite (Hbefore 0%nat) by lia. rewrite Hok.
      repeat split. intros ms [E|[E|[E|[]]]]; discriminate.
    + rewrite (Hbefore 0%nat), (Hbefore 1%nat) by lia. rewrite Hok.
      repeat split. intros ms [E|[E|[E|[E|[E|[]]]]]]; discriminate.
Qed.

Lemma createAccountBatch_retries_witness :
  List.length [FeePayerKey 0] = List.length [Fresh 0] /\
  _createAccountBatch (fun _ => false) (PK (Fresh 99)) (Fresh 100)
    {| total := 0; feeAccountCost := 1; programAccountCost := 2 |}
    [FeePayerKey 0] [Fresh 0] 32 =
  (let tx := build_batch_tx (Fresh 100) (PK (Fresh 99))
               {| total := 0; feeAccountCost := 1; programAccountCost := 2 |}
               [FeePayerKey 0] [Fresh 0] 32 in
   ([EvSend tx [Fresh 100; Fresh 0]; log_retries 2; EvSend tx [Fresh 100; Fresh 0];
     log_retries 1; EvSend tx [Fresh 100; Fresh 0]], Err "Couldn't confirm transaction")).
Proof.
  split; [reflexivity|].
  apply (createAccountBatch_retries (fun _ => false) (PK (Fresh 99)) (Fresh 100)
           {| total := 0; feeAccountCost := 1; programAccountCost := 2 |}
           [FeePayerKey 0] [Fresh 0] 32 eq_refl).
  intros k; reflexivity.
Defined.

(* ------------------------------------------------------------------ *)
(** ** The batching loop *)

Lemma batch_count_spec (P k : nat) : (5 * k < P <-> k < batch_count P)%nat.
Proof.
  unfold batch_count.
  pose proof (Nat.div_mod (P + 4) 5 ltac:(lia)).
  pose proof (Nat.mod_upper_bound (P + 4) 5 ltac:(lia)).
  nia.
Qed.

Lemma create_loop_batches (P : nat) (fp pa : list Keypair) :
  forall fuel k, (batch_count P - k <= fuel)%nat ->
  create_loop fuel P (5 * k) fp pa = map (batch_at fp pa) (seq k (batch_count P - k)).
Proof.
  induction fuel as [|fuel IH]; intros k Hf; cbn [create_loop].
  - replace (batch_count P - k)%nat with 0%nat by lia. reflexivity.
  - destruct (Nat.ltb_spec (5 * k) P) as [Hlt|Hge].
    + apply batch_count_spec in Hlt.
      replace (batch_count P - k)%nat with (S (batch_count P - S k)) by lia.
      cbn [seq map]. unfold BATCH_SIZE.
      replace (5 * k + 5)%nat with (5 * S k)%nat by lia.
      rewrite IH by lia. unfold batch_at.
      now replace (5 * S k)%nat with (5 * k + 5)%nat by lia.
    + assert (~ (k < batch_count P)%nat) by (rewrite <- batch_count_spec; lia).
      replace (batch_count P - k)%nat with 0%nat by lia. reflexivity.
Qed.

Lemma create_batches_eq (P : nat) (fp pa : list Keypair) :
  create_batches P fp pa = map (batch_at fp pa) (seq 0 (batch_count P)).
Proof.
  unfold create_batches.
  change (create_loop P P 0 fp pa) with (create_loop P P (5 * 0) fp pa).
  rewrite create_loop_batches.
  - now rewrite Nat.sub_0_r.
  - unfold batch_count.
    pose proof (Nat.div_mod (P + 4) 5 ltac:(lia)).
    pose proof (Nat.mod_upper_bound (P + 4) 5 ltac:(lia)). lia.
Qed.

Lemma firstn_app_skipn {A} (a b : nat) (x : list A) :
  (firstn a x ++ firstn b (skipn a x))%list = firstn (a + b) x.
Proof.
  revert x; induction a as [|a IH]; intros [|y x]; simpl; auto.
  - now rewrite firstn_nil.
  - now rewrite IH.
Qed.

Lemma slice_length {A} (l : list A) (a : nat) :
  List.length (slice l a (a + 5)) = Nat.min 5 (List.length l - a).
Proof.
  unfold slice. rewrite length_firstn, length_skipn.
  now replace (a + 5 - a)%nat with 5%nat by lia.
Qed.

Lemma concat_slices {A} (l : list A) :
  forall n k,
  List.concat (map (fun i => slice l (5 * i) (5 * i + 5)) (seq k n)) =
  firstn (5 * n) (skipn (5 * k) l).
Proof.
  induction n as [|n IH]; intros k; [reflexivity|].
  change (seq k (S n)) with (k :: seq (S k) n).
  cbn [map List.concat]. rewrite IH. unfold slice.
  replace (5 * k + 5 - 5 * k)%nat with 5%nat by lia.
  replace (5 * S k)%nat with (5 + 5 * k)%nat by lia.
  rewrite <- skipn_skipn, firstn_app_skipn.
  now replace (5 * S n)%nat with (5 + 5 * n)%nat by lia.
Qed.

Lemma nth_batches (fp pa : list Keypair) (n i : nat) :
  (i < n)%nat ->
  nth i (map (batch_at fp pa) (seq 0 n)) ([], []) = batch_at fp pa i.
Proof.
  intros Hi.
  rewrite nth_indep with (d' := batch_at fp pa 0)
    by now rewrite length_map, length_seq.
  now rewrite map_nth, seq_nth.
Qed.

Lemma getFeePayers_length (P : nat) : List.length (getFeePayers P) = P.
Proof. unfold getFeePayers. now rewrite length_map, length_seq. Qed.

Lemma new_keypairs_length (seed P : nat) : List.length (new_keypairs seed P) = P.
Proof. unfold new_keypairs. now rewrite length_map, length_seq. Qed.

Lemma getFeePayers_NoDup (P : nat) : NoDup (getFeePayers P).
Proof.
  apply NoDup_map_NoDup_ForallPairs; [intros x y _ _ E; now injection E|apply seq_NoDup].
Qed.

Lemma new_keypairs_NoDup (seed P : nat) : NoDup (new_keypairs seed P).
Proof.
  apply NoDup_map_NoDup_ForallPairs; [intros x y _ _ E; now injection E|apply seq_NoDup].
Qed.

Lemma concat_batches (P : nat) (fp pa : list Keypair) :
  List.length fp = P -> List.length pa = P ->
  List.concat (map fst (create_batches P fp pa)) = fp /\
  List.concat (map snd (create_batches P fp pa)) = pa.
Proof.
  intros Hfp Hpa.
  assert (Hc : (P <= 5 * batch_count P)%nat).
  { unfold batch_count.
    pose proof (Nat.div_mod (P + 4) 5 ltac:(lia)).
    pose proof (Nat.mod_upper_bound (P + 4) 5 ltac:(lia)). lia. }
  rewrite create_batches_eq, !map_map. unfold batch_at; cbn [fst snd].
  rewrite !concat_slices; cbn [Nat.mul skipn].
  split; apply firstn_all2; lia.
Qed.

(** C3: for [P >= 1] pairs, the loop of [_create] calls the batch submitter
    on contiguous slices [5 i .. 5 i + 5] in increasing [i]; there are
    [ceil(P / 5)] batches, all but the last hold exactly 5 pairs, each holds
    between 1 and 5 pairs, and the batches concatenate to the full sequences,
    so every pair is submitted once (for [_create]'s own key lists, which are
    duplicate-free, no key appears twice); for [P = 12] the batch sizes are
    [5, 5, 2]. *)
Theorem create_batches_partition (P seed : nat) (fp pa : list Keypair) :
  (1 <= P)%nat -> List.length fp = P -> List.length pa = P ->
  let calls := create_batches P fp pa in
  calls = map (batch_at fp pa) (seq 0 ((P + 4) / 5)) /\
  List.length calls = ((P + 4) / 5)%nat /\
  (forall i, (i + 1 < List.length calls)%nat ->
     List.length (fst (nth i calls ([], []))) = 5%nat /\
     List.length (snd (nth i calls ([], []))) = 5%nat) /\
  (forall b, In b calls ->
     (1 <= List.length (fst b) <= 5)%nat /\ List.length (snd b) = List.length (fst b)) /\
  List.concat (map fst calls) = fp /\ List.concat (map snd calls) = pa /\
  NoDup (List.concat (map fst (create_batches P (getFeePayers P) (new_keypairs seed P)))) /\
  NoDup (List.concat (map snd (create_batches P (getFeePayers P) (new_keypairs seed P)))) /\
  map (fun b => List.length (fst b)) (create_batches 12 (getFeePayers 12) (new_keypairs 0 12))
    = [5; 5; 2]%nat.
Proof.
  intros HP Hfp Hpa calls.
  pose proof (create_batches_eq P fp pa) as Heq.
  assert (Hlen : List.length calls = batch_count P)
    by (unfold calls; now rewrite Heq, length_map, length_seq).
  destruct (concat_batches P fp pa Hfp Hpa) as [Cf Cp].
  destruct (concat_batches P _ _ (getFeePayers_length P) (new_keypairs_length seed P))
    as [Cf' Cp'].
  split; [exact Heq|]. split; [exact Hlen|].
  split.
  { intros i Hi. rewrite Hlen in Hi. unfold calls. rewrite Heq, nth_batches by lia.
    unfold batch_at; cbn [fst snd]. rewrite !slice_length.
    assert (5 * (i + 1) < P)%nat by (apply batch_count_spec; lia). lia. }
  split.
  { intros b Hb. unfold calls in Hb. rewrite Heq in Hb.
    apply in_map_iff in Hb as (i & <- & Hi). apply in_seq in Hi.
    assert (5 * i < P)%nat by (apply batch_count_spec; lia).
    unfold batch_at; cbn [fst snd]. rewrite !slice_length. lia. }
  split; [exact Cf|]. split; [exact Cp|].
  split; [rewrite Cf'; apply getFeePayers_NoDup|].
  split; [rewrite Cp'; apply new_keypairs_NoDup|].
  reflexivity.
Qed.

Lemma create_batches_partition_witness :
  (1 <= 12)%nat /\
  create_batches 12 (getFeePayers 12) (new_keypairs 0 12) =
    map (batch_at (getFeePayers 12) (new_keypairs 0 12)) (seq 0 3).
Proof.
  split; [lia|].
  apply (create_batches_partition 12 0 (getFeePayers 12) (new_keypairs 0 12));
    [lia | apply getFeePayers_length | apply new_keypairs_length].
Defined.

Lemma create_loop_same_length (fuel P idx : nat) (fp pa : list Keypair) :
  List.length fp = List.length pa ->
  forall call, In call (create_loop fuel P idx fp pa) ->
  List.length (fst call) = List.length (snd call).
Proof.
  intros Hl. revert idx.
  induction fuel as [|fuel IH]; intros idx call Hin; cbn [create_loop] in Hin.
  - destruct Hin.
  - destruct (Nat.ltb idx P); [|destruct Hin].
    destruct Hin as [<-|Hin]; [|exact (IH _ _ Hin)].
    cbn [fst snd]. unfold slice. now rewrite !length_firstn, !length_skipn, Hl.
Qed.

Lemma retry_loop_not_internal (send : nat -> bool) (tx : Transaction)
    (signers : list Keypair) (retries attempt : nat) :
  snd (retry_loop send tx signers retries attempt) <> Err "Internal error".
Proof.
  revert attempt; induction retries as [|r IH]; intros attempt; cbn [retry_loop].
  - discriminate.
  - destruct (send attempt); [discriminate|].
    destruct (Nat.eqb r 0); [cbn [snd]; intros E; injection E; discriminate|].
    specialize (IH (S attempt)).
    destruct (retry_loop send tx signers r (S attempt)) as [evs res]; exact IH.
Qed.

(** C10: every call [_create]'s loop makes to [_createAccountBatch] passes
    two slices of equal length (both arrays have [parallelization] entries
    and are sliced with the same bounds), so the "Internal error" branch of
    the length check is never taken, whatever the network does. *)
Theorem create_batches_no_internal_error (P seed : nat) (send : nat -> bool)
    (breakProgramId : PublicKey) (payer : Keypair) (costs : AccountCosts) :
  forall call, In call (create_batches P (getFeePayers P) (new_keypairs seed P)) ->
  List.length (fst call) = List.length (snd call) /\
  snd (_createAccountBatch send breakProgramId payer costs (fst call) (snd call)
         (calculateProgrampace P)) <> Err "Internal error".
Proof.
  intros call Hin.
  assert (Hl : List.length (fst call) = List.length (snd call)).
  { apply (create_loop_same_length P P 0 (getFeePayers P) (new_keypairs seed P));
      [now rewrite getFeePayers_length, new_keypairs_length | exact Hin]. }
  split; [exact Hl|].
  unfold _createAccountBatch. rewrite Hl, Nat.eqb_refl. cbn [negb].
  apply retry_loop_not_internal.
Qed.

(* ------------------------------------------------------------------ *)
(** ** The exclusive gate *)

Lemma remove_one_op_count (p : Pending) (ps : list Pending) :
  In p ps -> (forall g, p <> PCost g) ->
  count_ops (remove_one p ps) = (count_ops ps - 1)%nat /\ (1 <= count_ops ps)%nat.
Proof.
  intros Hin Hp. induction ps as [|q ps IH]; [destruct Hin|].
  unfold count_ops in *. cbn [remove_one filter].
  destruct (Pending_eqb p q) eqn:E.
  - assert (q = p) as ->.
    { destruct p, q; try discriminate; try reflexivity.
      exfalso; exact (Hp _ eq_refl). }
    destruct p; [| |exfalso; exact (Hp _ eq_refl)]; cbn; lia.
  - destruct Hin as [Eq|Hin].
    + subst q. destruct p; cbn in E; try discriminate.
      now rewrite Nat.eqb_refl in E.
    + destruct (IH Hin) as [IH1 IH2].
      destruct q; cbn [filter List.length]; lia.
Qed.

Lemma remove_one_cost_count (g : nat) (ps : list Pending) :
  count_ops (remove_one (PCost g) ps) = count_ops ps.
Proof.
  induction ps as [|q ps IH]; [reflexivity|].
  unfold count_ops in *. cbn [remove_one].
  destruct (Pending_eqb (PCost g) q) eqn:E.
  - destruct q; try discriminate. reflexivity.
  - destruct q; cbn [filter List.length]; rewrite IH; reflexivity.
Qed.

Lemma create_call_started (env : Env) (st st' : State) :
  create_call env st = Started st' ->
  creationLock st = false /\ status st = inactive /\
  st' = set_status creating (set_lock true st).
Proof.
  unfold create_call.
  destruct (connection env), (breakProgramId env), (wallet env), (costs st);
    try discriminate.
  destruct (creationLock st); [discriminate|].
  destruct (status st) eqn:Es; cbn; try discriminate.
  intros H; injection H as <-. auto.
Qed.

Lemma close_call_started (env : Env) (st st' : State) :
  close_call env st = Started st' ->
  connection env <> None /\ wallet env <> None /\
  creationLock st = false /\ status st = inactive /\
  st' = set_status closing (set_lock true st).
Proof.
  unfold close_call.
  destruct (connection env), (wallet env); try discriminate.
  destruct (creationLock st); [discriminate|].
  destruct (status st) eqn:Es; cbn; try discriminate.
  intros H; injection H as <-. repeat split; congruence.
Qed.

Lemma gate_invariant_step (w w' : World) :
  step w w' ->
  count_ops (w_pending w) = (if creationLock (w_st w) then 1 else 0)%nat ->
  count_ops (w_pending w') = (if creationLock (w_st w') then 1 else 0)%nat.
Proof.
  intros Hs Hinv; destruct Hs; cbn [w_pending w_st] in *.
  - apply create_call_started in H as (Hl & _ & ->). rewrite Hl in Hinv.
    unfold count_ops in *; cbn. lia.
  - destruct (remove_one_op_count PCreate ps H ltac:(discriminate)) as [E1 E2].
    rewrite E1. destruct r; cbn; destruct (creationLock st); lia.
  - apply close_call_started in H as (_ & _ & Hl & _ & ->). rewrite Hl in Hinv.
    unfold count_ops in *; cbn. lia.
  - destruct (remove_one_op_count PClose ps H ltac:(discriminate)) as [E1 E2].
    rewrite E1. cbn. destruct (creationLock st); lia.
  - unfold deactivate. destruct (creationLock st) eqn:E; [now rewrite E|].
    cbn. rewrite E. exact Hinv.
  - unfold cost_effect. destruct (connection env'); cbn; exact Hinv.
  - exact Hinv.
  - rewrite remove_one_cost_count. unfold cost_settle.
    destruct (Nat.eqb (calculationCounter st) g); cbn; exact Hinv.
Qed.

Lemma gate_invariant (env0 : Env) (w : World) :
  reachable env0 w ->
  count_ops (w_pending w) = (if creationLock (w_st w) then 1 else 0)%nat.
Proof.
  unfold reachable. intros H. apply clos_rt_rtn1_iff in H.
  induction H as [|w1 w2 Hs _ IH]; [reflexivity|].
  exact (gate_invariant_step w1 w2 Hs IH).
Qed.

Lemma create_batches_no_internal_error_witness :
  In (batch_at (getFeePayers 7) (new_keypairs 0 7) 1)
     (create_batches 7 (getFeePayers 7) (new_keypairs 0 7)) /\
  snd (_createAccountBatch (fun _ => false) (PK (Fresh 99)) (Fresh 100)
         {| total := 0; feeAccountCost := 1; programAccountCost := 2 |}
         (fst (batch_at (getFeePayers 7) (new_keypairs 0 7) 1))
         (snd (batch_at (getFeePayers 7) (new_keypairs 0 7) 1))
         (calculateProgrampace 7)) <> Err "Internal error".
Proof.
  assert (Hin : In (batch_at (getFeePayers 7) (new_keypairs 0 7) 1)
                   (create_batches 7 (getFeePayers 7) (new_keypairs 0 7)))
    by (cbv; right; left; reflexivity).
  split; [exact Hin|].
  exact (proj2 (create_batches_no_internal_error 7 0 (fun _ => false) (PK (Fresh 99))
                  (Fresh 100) {| total := 0; feeAccountCost := 1; programAccountCost := 2 |}
                  _ Hin)).
Defined.

(* ------------------------------------------------------------------ *)
(** ** A concrete run of the provider *)

Lemma reach_next (env0 : Env) (w w' : World) :
  reachable env0 w -> step w w' -> reachable env0 w'.
Proof. intros H Hs. eapply rt_trans; [exact H|apply rt_step; exact Hs]. Qed.

Lemma step_eq (w w1 w2 : World) : step w w1 -> w1 = w2 -> step w w2.
Proof. now intros H <-. Qed.

(** Mount (the effect starts generation 1), the costs arrive, [close] starts. *)
Lemma idle_world_reachable (env : Env) :
  connection env = Some sample_connection -> wallet env = Some (Fresh 100) ->
  reachable env (idle_world env) /\ reachable env (closing_world env).
Proof.
  intros Hc Hw.
  assert (H1 : reachable env
                 {| w_env := env;
                    w_st := fst (cost_effect env initial_state);
                    w_pending := [PCost 1] |}).
  { eapply reach_next; [apply rt_refl|].
    eapply step_eq; [apply (step_effect env env initial_state [])|].
    unfold cost_effect. rewrite Hc. reflexivity. }
  assert (H2 : reachable env (idle_world env)).
  { eapply reach_next; [exact H1|].
    eapply step_eq; [apply (step_cost_settle env _ _ 1 demo_costs); now left|].
    unfold cost_effect. rewrite Hc. reflexivity. }
  split; [exact H2|].
  eapply reach_next; [exact H2|].
  eapply step_eq; [apply step_close_start|reflexivity].
  unfold close_call; cbn. rewrite Hc, Hw. reflexivity.
Qed.

Lemma creating_world_reachable (env : Env) :
  connection env = Some sample_connection -> wallet env = Some (Fresh 100) ->
  breakProgramId env <> None ->
  reachable env (creating_world env).
Proof.
  intros Hc Hw Hp.
  eapply reach_next; [exact (proj1 (idle_world_reachable env Hc Hw))|].
  eapply step_eq; [apply step_create_start|reflexivity].
  unfold create_call; cbn. rewrite Hc, Hw.
  destruct (breakProgramId env); [reflexivity|congruence].
Qed.

(** C2 (as amended): in every reachable state the lock is held exactly when
    one [create] or [close] is in flight (never two); while it is held, a
    [close] call with a connection and a wallet, or a [create] call that
    also has the program id and the costs, logs a warning and returns
    without touching the state; while it is held, a call failing one of
    its precondition checks throws that check's error ([close]: no
    connection, no wallet; [create]: no connection, no program id, no
    wallet, no costs, checked in that order); and both ways a started
    operation settles (resolved or rejected) release the lock. *)
Theorem gate_exclusive (env0 : Env) (w : World) :
  reachable env0 w ->
  count_ops (w_pending w) = (if creationLock (w_st w) then 1 else 0)%nat /\
  (creationLock (w_st w) = true ->
   connection (w_env w) <> None -> wallet (w_env w) <> None ->
   close_call (w_env w) (w_st w) = Warned "Account closing is locked" /\
   (breakProgramId (w_env w) <> None -> costs (w_st w) <> None ->
    create_call (w_env w) (w_st w) = Warned "Account creation is locked")) /\
  (creationLock (w_st w) = true ->
   (connection (w_env w) = None ->
    close_call (w_env w) (w_st w) = Threw "Can't close  until connection is valid" /\
    create_call (w_env w) (w_st w) = Threw "Invalid connection") /\
   (connection (w_env w) <> None -> wallet (w_env w) = None ->
    close_call (w_env w) (w_st w) = Threw "Can't create  if wallet is not setup") /\
   (connection (w_env w) <> None -> breakProgramId (w_env w) = None ->
    create_call (w_env w) (w_st w) = Threw "Missing break program id") /\
   (connection (w_env w) <> None -> breakProgramId (w_env w) <> None ->
    wallet (w_env w) = None ->
    create_call (w_env w) (w_st w) = Threw "Missing wallet") /\
   (connection (w_env w) <> None -> breakProgramId (w_env w) <> None ->
    wallet (w_env w) <> None -> costs (w_st w) = None ->
    create_call (w_env w) (w_st w) = Threw "Calculating costs")) /\
  (forall r, creationLock (fst (create_settle r (w_st w))) = false) /\
  (forall r, creationLock (fst (close_settle r (w_st w))) = false).
Proof.
  intros Hr. split; [exact (gate_invariant env0 w Hr)|].
  split.
  - intros Hl Hc Hw. unfold close_call, create_call.
    destruct (connection (w_env w)); [|congruence].
    destruct (wallet (w_env w)); [|congruence].
    rewrite Hl. split; [reflexivity|].
    intros Hp Hco.
    destruct (breakProgramId (w_env w)); [|congruence].
    destruct (costs (w_st w)); [reflexivity|congruence].
  - split.
    + intros _. unfold close_call, create_call.
      repeat split; intros;
        repeat match goal with
               | H : ?x = None |- _ => rewrite H in *
               | H : ?x <> None |- _ =>
                   let v := fresh in destruct x as [v|] eqn:?; [clear H|congruence]
               end; reflexivity.
    + split; [intros [cfg|m]|intros r]; reflexivity.
Qed.

Lemma gate_exclusive_witness :
  reachable env_ok (closing_world env_ok) /\
  close_call env_ok (w_st (closing_world env_ok)) = Warned "Account closing is locked" /\
  create_call env_ok (w_st (closing_world env_ok)) = Warned "Account creation is locked" /\
  reachable env_noprog (closing_world env_noprog) /\
  create_call env_noprog (w_st (closing_world env_noprog)) =
    Threw "Missing break program id".
Proof.
  assert (Hr : reachable env_ok (closing_world env_ok))
    by exact (proj2 (idle_world_reachable env_ok eq_refl eq_refl)).
  assert (Hr' : reachable env_noprog (closing_world env_noprog))
    by exact (proj2 (idle_world_reachable env_noprog eq_refl eq_refl)).
  destruct (gate_exclusive env_ok (closing_world env_ok) Hr) as (_ & H & _).
  destruct (H eq_refl ltac:(discriminate) ltac:(discriminate)) as [Hclose Hcreate].
  destruct (gate_exclusive env_noprog (closing_world env_noprog) Hr') as (_ & _ & H' & _).
  destruct (H' eq_refl) as (_ & _ & Hnoprog & _).
  split; [exact Hr|]. split; [exact Hclose|].
  split; [apply Hcreate; discriminate|].
  split; [exact Hr'|].
  exact (Hnoprog ltac:(discriminate) eq_refl).
Defined.

(** C2 fails as stated: while a [close] holds the lock, a [create] call on a
    provider whose program id is not loaded throws "Missing break program id"
    (its precondition checks come before the lock check) instead of
    returning as a no-op. *)
Lemma gate_held_create_throws :
  reachable env_noprog (closing_world env_noprog) /\
  creationLock (w_st (closing_world env_noprog)) = true /\
  create_call env_noprog (w_st (closing_world env_noprog)) =
    Threw "Missing break program id".
Proof.
  split; [exact (proj2 (idle_world_reachable env_noprog eq_refl eq_refl))|].
  split; reflexivity.
Qed.

(** C5 (as amended): in every reachable state, when the [create] in flight
    sees [_create] reject with [m], it logs "Failed to create " with the
    error, drops the pool config, sets status [inactive], releases the lock
    and resolves (the error is not passed to the caller); when the [close]
    in flight sees [_close] reject, it sets status [inactive], releases the
    lock, leaves the config as it was and rejects with the error.  Neither
    retries: once the failure has settled no [create] or [close] is left
    in flight, so nothing runs again until a new call. *)
Theorem settle_on_failure (env0 : Env) (w : World) (m : string) :
  reachable env0 w ->
  (In PCreate (w_pending w) ->
   create_settle (Err m) (w_st w) =
     (set_lock false (set_status inactive (set_config None (w_st w))),
      (Ok tt, [EvLog ("Failed to create " ++ m)])) /\
   count_ops (remove_one PCreate (w_pending w)) = 0%nat) /\
  (In PClose (w_pending w) ->
   close_settle (Err m) (w_st w) = (set_lock false (set_status inactive (w_st w)), Err m) /\
   config (fst (close_settle (Err m) (w_st w))) = config (w_st w) /\
   count_ops (remove_one PClose (w_pending w)) = 0%nat).
Proof.
  intros Hr. pose proof (gate_invariant env0 w Hr) as Hg.
  assert (Hle : (count_ops (w_pending w) <= 1)%nat)
    by (rewrite Hg; destruct (creationLock (w_st w)); lia).
  split.
  - intros Hin. split; [reflexivity|].
    destruct (remove_one_op_count PCreate (w_pending w) Hin ltac:(discriminate))
      as [E _].
    rewrite E. lia.
  - intros Hin. split; [reflexivity|]. split; [reflexivity|].
    destruct (remove_one_op_count PClose (w_pending w) Hin ltac:(discriminate))
      as [E _].
    rewrite E. lia.
Qed.

Lemma settle_on_failure_witness :
  reachable env_ok (creating_world env_ok) /\
  snd (create_settle (Err "Couldn't confirm transaction") (w_st (creating_world env_ok))) =
    (Ok tt, [EvLog "Failed to create Couldn't confirm transaction"]) /\
  count_ops (remove_one PCreate (w_pending (creating_world env_ok))) = 0%nat /\
  reachable env_ok (closing_world env_ok) /\
  snd (close_settle (Err "x") (w_st (closing_world env_ok))) = Err "x" /\
  count_ops (remove_one PClose (w_pending (closing_world env_ok))) = 0%nat.
Proof.
  assert (Hr1 : reachable env_ok (creating_world env_ok))
    by exact (creating_world_reachable env_ok eq_refl eq_refl ltac:(discriminate)).
  assert (Hr2 : reachable env_ok (closing_world env_ok))
    by exact (proj2 (idle_world_reachable env_ok eq_refl eq_refl)).
  destruct (proj1 (settle_on_failure env_ok _ "Couldn't confirm transaction" Hr1)
              (or_introl eq_refl)) as [E1 C1].
  destruct (proj2 (settle_on_failure env_ok _ "x" Hr2) (or_introl eq_refl))
    as (E2 & _ & C2).
  split; [exact Hr1|]. split; [rewrite E1; reflexivity|]. split; [exact C1|].
  split; [exact Hr2|]. split; [rewrite E2; reflexivity|exact C2].
Defined.

(** C5 fails as stated: a provisioning run whose every submission fails
    rejects with "Couldn't confirm transaction", yet [create]'s promise
    resolves. *)
Lemma create_failure_resolves :
  snd (_create (fun _ _ => false) 0 (PK (Fresh 99)) (Fresh 100) demo_costs 4) =
    Err "Couldn't confirm transaction" /\
  fst (snd (create_settle (snd (_create (fun _ _ => false) 0 (PK (Fresh 99)) (Fresh 100)
                                  demo_costs 4)) creating_state)) = Ok tt.
Proof. split; vm_compute; reflexivity. Qed.

(* ------------------------------------------------------------------ *)
(** ** The cost computation *)

Lemma counter_mono_step (w w' : World) :
  step w w' -> (calculationCounter (w_st w) <= calculationCounter (w_st w'))%nat.
Proof.
  intros Hs; destruct Hs; cbn [w_st].
  - apply create_call_started in H as (_ & _ & ->). reflexivity.
  - destruct r; reflexivity.
  - apply close_call_started in H as (_ & _ & _ & _ & ->). reflexivity.
  - reflexivity.
  - unfold deactivate. destruct (creationLock st); reflexivity.
  - unfold cost_effect. destruct (connection env'); cbn; lia.
  - reflexivity.
  - unfold cost_settle. destruct (Nat.eqb (calculationCounter st) g); reflexivity.
Qed.

Lemma counter_mono (w w' : World) :
  clos_refl_trans World step w w' ->
  (calculationCounter (w_st w) <= calculationCounter (w_st w'))%nat.
Proof.
  induction 1 as [w w' Hs| w | w1 w2 w3 _ IH1 _ IH2].
  - exact (counter_mono_step w w' Hs).
  - reflexivity.
  - lia.
Qed.

(** C6: every run of the effect (on a change of [parallelization] or
    [connection]) raises the counter by one and tags the computation it
    starts with the new value; once the counter has moved past a
    computation's tag [g], the counter never comes back, so from then on,
    whatever happens, that computation's result leaves the whole state
    (costs, status, config, lock, counter) unchanged. *)
Theorem stale_result_dropped :
  (forall env st,
     calculationCounter (fst (cost_effect env st)) = S (calculationCounter st) /\
     (forall g, snd (cost_effect env st) = Some g -> g = S (calculationCounter st))) /\
  (forall w w' g c,
     clos_refl_trans World step w w' -> (g < calculationCounter (w_st w))%nat ->
     cost_settle g c (w_st w') = w_st w').
Proof.
  split.
  - intros env st. unfold cost_effect.
    destruct (connection env); cbn; split; try reflexivity;
      intros g E; [injection E as <-; reflexivity|discriminate].
  - intros w w' g c Hrt Hlt.
    pose proof (counter_mono w w' Hrt).
    unfold cost_settle.
    destruct (Nat.eqb_spec (calculationCounter (w_st w')) g); [lia|reflexivity].
Qed.

Lemma stale_result_dropped_witness :
  step (idle_world env_ok)
       {| w_env := env_ok8; w_st := fst (cost_effect env_ok8 (w_st (idle_world env_ok)));
          w_pending := [PCost 2] |} /\
  cost_settle 1%nat demo_costs (fst (cost_effect env_ok8 (w_st (idle_world env_ok)))) =
    fst (cost_effect env_ok8 (w_st (idle_world env_ok))).
Proof.
  assert (Hs : step (idle_world env_ok)
       {| w_env := env_ok8; w_st := fst (cost_effect env_ok8 (w_st (idle_world env_ok)));
          w_pending := [PCost 2] |}).
  { eapply step_eq; [apply (step_effect env_ok env_ok8)|reflexivity]. }
  split; [exact Hs|].
  set (w := {| w_env := env_ok8;
               w_st := fst (cost_effect env_ok8 (w_st (idle_world env_ok)));
               w_pending := [PCost 2] |}).
  exact (proj2 stale_result_dropped w w 1%nat demo_costs (rt_refl _ _ w)
           ltac:(cbn; lia)).
Defined.

(** C8: a computation of the current generation that succeeds stores its
    costs and moves status from [initializing] to [inactive]; any other
    status is left as it is (and so are the config, the lock and the
    counter). *)
Theorem current_result_status (st : State) (c : AccountCosts) :
  let st' := cost_settle (calculationCounter st) c st in
  costs st' = Some c /\
  (status st = initializing -> status st' = inactive) /\
  (status st <> initializing -> status st' = status st) /\
  config st' = config st /\ creationLock st' = creationLock st /\
  calculationCounter st' = calculationCounter st.
Proof.
  intros st'. unfold st', cost_settle. rewrite Nat.eqb_refl.
  destruct (status st) eqn:Es; cbn; rewrite ?Es;
    repeat split; intros; try reflexivity; try congruence.
Qed.

(** C7: [close] starts its teardown (lock taken, status [closing]) exactly
    when there are a connection and a wallet, the lock is free and status
    is [inactive]; from any other status, [active] included, it returns
    without doing anything. *)
Theorem close_requires_inactive (env : Env) (st : State) :
  ((exists st', close_call env st = Started st') <->
   connection env <> None /\ wallet env <> None /\ creationLock st = false /\
   status st = inactive) /\
  (forall st', close_call env st = Started st' ->
     st' = set_status closing (set_lock true st)) /\
  (status st <> inactive -> creationLock st = false ->
   connection env <> None -> wallet env <> None -> close_call env st = Returned).
Proof.
  split; [split|split].
  - intros [st' H]. apply close_call_started in H as (? & ? & ? & ? & _). auto.
  - intros (Hc & Hw & Hl & Hs). unfold close_call.
    destruct (connection env); [|congruence]. destruct (wallet env); [|congruence].
    rewrite Hl, Hs. eexists; reflexivity.
  - intros st' H. now apply close_call_started in H as (_ & _ & _ & _ & ->).
  - intros Hs Hl Hc Hw. unfold close_call.
    destruct (connection env); [|congruence]. destruct (wallet env); [|congruence].
    rewrite Hl. destruct (status st); cbn; congruence.
Qed.

(* ------------------------------------------------------------------ *)
(** ** Where the pool's keys come from *)

(** C9 (as amended): a successful [_create] returns as program accounts the
    public keys of the [parallelization] keypairs it has just generated, but
    as fee payers the keypairs [getFeePayers(parallelization)], the very set
    [_close] recomputes and has sign its consolidating transaction; the
    per-account capacity is [8 * storageUnits]. *)
Theorem create_config_keys (send : nat -> nat -> bool) (seed : nat)
    (bp : PublicKey) (payer : Keypair) (cs : AccountCosts) (P : nat) (cfg : Config) :
  snd (_create send seed bp payer cs P) = Ok cfg ->
  feePayerKeypairs cfg = getFeePayers P /\
  program cfg = map publicKey (new_keypairs seed P) /\
  accountCapacity cfg = calculateTransactionsPerAccount (calculateProgrampace P) /\
  (forall getBalance ok e, In e (fst (_close getBalance ok payer P)) ->
     exists tx, e = EvSend tx (payer :: feePayerKeypairs cfg)).
Proof.
  unfold _create.
  destruct (run_batches send bp payer cs (calculateProgrampace P) 0
              (create_batches P (getFeePayers P) (new_keypairs seed P))) as [evs [u|m]];
    cbn [snd]; [|discriminate].
  intros H; injection H as <-; cbn [feePayerKeypairs program accountCapacity].
  repeat split; try reflexivity.
  intros getBalance ok e Hin. unfold _close in Hin.
  destruct (fold_right _ _ _) as [balances|]; [|destruct Hin].
  destruct ok; destruct Hin as [<-|[]]; eexists; reflexivity.
Qed.

Lemma create_config_keys_witness :
  snd (_create (fun _ _ => true) 0 (PK (Fresh 99)) (Fresh 100) demo_costs 4) =
    Ok {| accountCapacity := 256; feePayerKeypairs := getFeePayers 4;
          program := map publicKey (new_keypairs 0 4) |} /\
  feePayerKeypairs {| accountCapacity := 256; feePayerKeypairs := getFeePayers 4;
                      program := map publicKey (new_keypairs 0 4) |} = getFeePayers 4.
Proof.
  assert (H : snd (_create (fun _ _ => true) 0 (PK (Fresh 99)) (Fresh 100) demo_costs 4) =
                Ok {| accountCapacity := 256; feePayerKeypairs := getFeePayers 4;
                      program := map publicKey (new_keypairs 0 4) |})
    by (vm_compute; reflexivity).
  split; [exact H|].
  exact (proj1 (create_config_keys _ _ _ _ _ _ _ H)).
Defined.

(** C9 fails as stated: two provisioning runs with the same
    [parallelization] but different freshly generated keys return the same
    fee-payer keypairs, [getFeePayers 4], while their program accounts
    differ. *)
Lemma create_feePayers_not_fresh :
  exists cfg1 cfg2,
    snd (_create (fun _ _ => true) 0 (PK (Fresh 99)) (Fresh 100) demo_costs 4) = Ok cfg1 /\
    snd (_create (fun _ _ => true) 50 (PK (Fresh 99)) (Fresh 100) demo_costs 4) = Ok cfg2 /\
    feePayerKeypairs cfg1 = feePayerKeypairs cfg2 /\
    feePayerKeypairs cfg1 = getFeePayers 4 /\
    program cfg1 <> program cfg2.
Proof.
  eexists; eexists.
  split; [vm_compute; reflexivity|].
  split; [vm_compute; reflexivity|].
  split; [reflexivity|]. split; [reflexivity|].
  vm_compute. discriminate.
Qed.

(* ================================================================== *)
(** * Further properties of the code *)

(** X1: for [P >= 1] the program account size lies between 1 and 125
    bytes, and the whole pool's capacity [P * txPerAccount] is at least
    1000 transactions and falls short of [1000 + 8 P]. *)
Theorem programpace_bounds (P : nat) :
  (1 <= P)%nat ->
  1 <= calculateProgrampace P <= 125 /\
  1000 <= Z.of_nat P * calculateTransactionsPerAccount (calculateProgrampace P)
       < 1000 + 8 * Z.of_nat P.
Proof.
  intros HP.
  rewrite (calculateProgrampace_eq P HP).
  unfold storageUnits_spec, calculateTransactionsPerAccount, TX_PER_BYTE.
  set (p := Z.of_nat P). assert (1 <= p) by lia.
  pose proof (Z.div_mod (1000 + 8 * p - 1) (8 * p) ltac:(lia)).
  pose proof (Z.mod_pos_bound (1000 + 8 * p - 1) (8 * p) ltac:(lia)).
  set (q := (1000 + 8 * p - 1) / (8 * p)) in *.
  set (r := (1000 + 8 * p - 1) mod (8 * p)) in *.
  assert (1000 <= 8 * p * q) by lia.
  assert (1 <= q) by nia.
  assert (q <= 125) by nia.
  nia.
Qed.

Lemma programpace_bounds_witness :
  (1 <= 3)%nat /\ calculateProgrampace 3 = 42 /\
  1 <= calculateProgrampace 3 <= 125.
Proof.
  split; [lia|]. split; [vm_compute; reflexivity|].
  exact (proj1 (programpace_bounds 3 ltac:(lia))).
Defined.

(** X2: a larger pool never gets larger program accounts: for
    [1 <= P <= Q], [calculateProgrampace Q <= calculateProgrampace P]. *)
Theorem programpace_antitone (P Q : nat) :
  (1 <= P)%nat -> (P <= Q)%nat -> calculateProgrampace Q <= calculateProgrampace P.
Proof.
  intros HP HQ.
  rewrite (calculateProgrampace_eq P HP), (calculateProgrampace_eq Q ltac:(lia)).
  unfold storageUnits_spec.
  replace (1000 + 8 * Z.of_nat P - 1) with (999 + 1 * (8 * Z.of_nat P)) by lia.
  replace (1000 + 8 * Z.of_nat Q - 1) with (999 + 1 * (8 * Z.of_nat Q)) by lia.
  rewrite !Z.div_add by lia.
  apply Z.add_le_mono_r, Z.div_le_compat_l; lia.
Qed.

Lemma programpace_antitone_witness :
  (1 <= 4)%nat /\ (4 <= 12)%nat /\ calculateProgrampace 12 <= calculateProgrampace 4.
Proof.
  split; [lia|]. split; [lia|]. exact (programpace_antitone 4 12 ltac:(lia) ltac:(lia)).
Defined.

Ltac sends_only H :=
  repeat (destruct H as [H|H];
          [first [injection H as H1 H2; subst; split; reflexivity | discriminate H] |]);
  destruct H.

Lemma createAccountBatch_facts (send : nat -> bool) (bp : PublicKey) (payer : Keypair)
    (cs : AccountCosts) (fp pa : list Keypair) (ps : Z) :
  List.length fp = List.length pa ->
  let '(evs, r) := _createAccountBatch send bp payer cs fp pa ps in
  (r = Ok tt <-> exists k, (k < 3)%nat /\ send k = true) /\
  (forall m, r = Err m -> m = "Couldn't confirm transaction") /\
  (forall tx sg, In (EvSend tx sg) evs ->
     tx = build_batch_tx payer bp cs fp pa ps /\ sg = payer :: pa) /\
  (1 <= count_sends evs <= 3)%nat.
Proof.
  intros Hl. unfold _createAccountBatch. rewrite Hl, Nat.eqb_refl. cbn [negb].
  cbn [retry_loop Nat.eqb].
  destruct (send 0%nat) eqn:E0; [|destruct (send 1%nat) eqn:E1;
                                  [|destruct (send 2%nat) eqn:E2]]; cbn.
  all: split; [|split; [|split]].
  all: try (split; [intros _;
                    first [exists 0%nat; split; [lia|assumption]
                          |exists 1%nat; split; [lia|assumption]
                          |exists 2%nat; split; [lia|assumption]]
                   | reflexivity]).
  all: try (split; [discriminate|]; intros (k & Hk & Hs);
            destruct k as [|[|[|k]]]; [congruence|congruence|congruence|lia]).
  all: try (intros m Hm; first [discriminate | now injection Hm as <-]).
  all: try (intros tx sg H; unfold log_retries in H; sends_only H).
  all: lia.
Qed.

(** X3: [_createAccountBatch] given slices of different lengths rejects
    with "Internal error" and submits nothing.  Given slices of equal
    length, it submits between one and three times, resolves exactly when
    one of the first three submissions is confirmed, rejects otherwise with
    "Couldn't confirm transaction", and every submission is the same
    transaction signed by the payer and the batch's program accounts only. *)
Theorem createAccountBatch_outcomes (send : nat -> bool) (bp : PublicKey)
    (payer : Keypair) (cs : AccountCosts) (fp pa : list Keypair) (ps : Z) :
  (List.length fp <> List.length pa ->
   _createAccountBatch send bp payer cs fp pa ps = ([], Err "Internal error")) /\
  (List.length fp = List.length pa ->
   let '(evs, r) := _createAccountBatch send bp payer cs fp pa ps in
   (r = Ok tt <-> exists k, (k < 3)%nat /\ send k = true) /\
   (forall m, r = Err m -> m = "Couldn't confirm transaction") /\
   (forall tx sg, In (EvSend tx sg) evs ->
      tx = build_batch_tx payer bp cs fp pa ps /\ sg = payer :: pa) /\
   (1 <= count_sends evs <= 3)%nat).
Proof.
  split.
  - intros Hne. unfold _createAccountBatch.
    destruct (Nat.eqb_spec (List.length pa) (List.length fp)); [lia|reflexivity].
  - apply createAccountBatch_facts.
Qed.

Lemma combine_skipn {A B} (n : nat) (l : list A) (l' : list B) :
  skipn n (combine l l') = combine (skipn n l) (skipn n l').
Proof.
  revert l l'; induction n as [|n IH]; intros [|x l] [|y l']; cbn; auto.
  now destruct (skipn n l).
Qed.

Lemma combine_slice {A B} (l : list A) (l' : list B) (a b : nat) :
  combine (slice l a b) (slice l' a b) = slice (combine l l') a b.
Proof. unfold slice. now rewrite combine_skipn, combine_firstn. Qed.

Lemma concat_map_flat_map {A B} (f : A -> list B) (xs : list (list A)) :
  List.concat (map (flat_map f) xs) = flat_map f (List.concat xs).
Proof.
  induction xs as [|x xs IH]; [reflexivity|].
  cbn [map List.concat]. now rewrite IH, flat_map_app.
Qed.

Lemma tx_lamports_app (a b : Transaction) :
  tx_lamports (a ++ b)%list = tx_lamports a + tx_lamports b.
Proof.
  induction a as [|i a IH]; cbn; [reflexivity|]. unfold tx_lamports in *. lia.
Qed.

Lemma tx_lamports_batches (payer : Keypair) (bp : PublicKey) (cs : AccountCosts)
    (ps : Z) (L : list (Keypair * Keypair)) :
  tx_lamports (flat_map (batch_instructions payer bp cs ps) L) =
  Z.of_nat (List.length L) * (programAccountCost cs + feeAccountCost cs).
Proof.
  induction L as [|[k1 k2] L IH]; [reflexivity|].
  cbn [flat_map]. rewrite tx_lamports_app, IH.
  cbn [batch_instructions tx_lamports fold_right instr_lamports List.length].
  lia.
Qed.

(** X4: the batch transactions of [_create], taken together, hold exactly
    the instructions of one transaction over all pairs in index order: for
    each [i], a [createAccount] of program account [i] with
    [programAccountCost] lamports and [programpace] bytes owned by the
    program, then a transfer of [feeAccountCost] to fee payer [i].  So the
    payer sends [P * (programAccountCost + feeAccountCost)] lamports in
    all, which is [total] when the costs were computed for [P]. *)
Theorem create_batches_instructions (P : nat) (fp pa : list Keypair) (payer : Keypair)
    (bp : PublicKey) (cs : AccountCosts) (ps : Z) :
  List.length fp = P -> List.length pa = P ->
  List.concat (batch_txs payer bp cs ps (create_batches P fp pa)) =
    flat_map (batch_instructions payer bp cs ps) (combine pa fp) /\
  tx_lamports (List.concat (batch_txs payer bp cs ps (create_batches P fp pa))) =
    Z.of_nat P * (programAccountCost cs + feeAccountCost cs) /\
  (forall conn, calculateCosts conn P = Some cs ->
   tx_lamports (List.concat (batch_txs payer bp cs ps (create_batches P fp pa))) =
     total cs).
Proof.
  intros Hfp Hpa.
  assert (Hc : (P <= 5 * batch_count P)%nat).
  { unfold batch_count.
    pose proof (Nat.div_mod (P + 4) 5 ltac:(lia)).
    pose proof (Nat.mod_upper_bound (P + 4) 5 ltac:(lia)). lia. }
  assert (Hcat : List.concat (batch_txs payer bp cs ps (create_batches P fp pa)) =
                 flat_map (batch_instructions payer bp cs ps) (combine pa fp)).
  { unfold batch_txs. rewrite create_batches_eq, map_map.
    unfold batch_at, build_batch_tx; cbn [fst snd].
    erewrite map_ext by (intros i; now rewrite combine_slice).
    rewrite <- (map_map (fun i => slice (combine pa fp) (5 * i) (5 * i + 5))
                        (flat_map (batch_instructions payer bp cs ps))).
    rewrite concat_map_flat_map, concat_slices, Nat.mul_0_r. cbn [skipn].
    rewrite firstn_all2; [reflexivity|].
    rewrite length_combine. lia. }
  assert (Hsum : tx_lamports (List.concat (batch_txs payer bp cs ps
                                             (create_batches P fp pa))) =
                 Z.of_nat P * (programAccountCost cs + feeAccountCost cs)).
  { rewrite Hcat, tx_lamports_batches, length_combine. f_equal. f_equal. lia. }
  split; [exact Hcat|]. split; [exact Hsum|].
  intros conn Hcost. rewrite Hsum.
  unfold calculateCosts in Hcost.
  destruct (getMinimumBalanceForRentExemption conn (calculateProgrampace P));
    [|discriminate].
  destruct (getMinimumBalanceForRentExemption conn 0); [|discriminate].
  destruct (lamportsPerSignature conn); [|discriminate].
  now injection Hcost as <-.
Qed.

Lemma create_batches_instructions_witness :
  List.length (getFeePayers 7) = 7%nat /\ List.length (new_keypairs 0 7) = 7%nat /\
  tx_lamports (List.concat (batch_txs (Fresh 100) (PK (Fresh 99)) demo_costs 18
                 (create_batches 7 (getFeePayers 7) (new_keypairs 0 7)))) =
    7 * (programAccountCost demo_costs + feeAccountCost demo_costs).
Proof.
  split; [reflexivity|]. split; [reflexivity|].
  exact (proj1 (proj2 (create_batches_instructions 7 (getFeePayers 7) (new_keypairs 0 7)
                         (Fresh 100) (PK (Fresh 99)) demo_costs 18 eq_refl eq_refl))).
Defined.

Lemma run_batches_facts (send : nat -> nat -> bool) (bp : PublicKey) (payer : Keypair)
    (cs : AccountCosts) (ps : Z) :
  forall calls b0,
  Forall (fun c => List.length (fst c) = List.length (snd c)) calls ->
  let '(evs, r) := run_batches send bp payer cs ps b0 calls in
  (r = Ok tt <-> forall i, (i < List.length calls)%nat ->
                  exists k, (k < 3)%nat /\ send (b0 + i)%nat k = true) /\
  (forall m, r = Err m -> m = "Couldn't confirm transaction") /\
  (forall i, (i < List.length calls)%nat ->
     (forall k, (k < 3)%nat -> send (b0 + i)%nat k = false) ->
     forall tx sg, In (EvSend tx sg) evs ->
     exists j, (j <= i)%nat /\ tx = nth j (batch_txs payer bp cs ps calls) []).
Proof.
  induction calls as [|[fp pa] rest IH]; intros b0 Hall.
  - cbn. split; [split; [intros _ i Hi; lia|reflexivity]|].
    split; [discriminate|]. intros i Hi; lia.
  - inversion Hall as [|? ? H0 Hrest]; subst; cbn [fst snd] in H0.
    pose proof (createAccountBatch_facts (send b0) bp payer cs fp pa ps H0) as F.
    cbn [run_batches].
    destruct (_createAccountBatch (send b0) bp payer cs fp pa ps) as [evs1 r1].
    destruct F as (F1 & F2 & F3 & F4).
    destruct r1 as [[]|m].
    + specialize (IH (S b0) Hrest).
      destruct (run_batches send bp payer cs ps (S b0) rest) as [evs2 r2].
      destruct IH as (I1 & I2 & I3).
      split; [|split; [exact I2|]].
      * rewrite I1. split.
        -- intros H i Hi. destruct i as [|i].
           ++ rewrite Nat.add_0_r. now apply F1.
           ++ replace (b0 + S i)%nat with (S b0 + i)%nat by lia.
              apply H. cbn in Hi; lia.
        -- intros H i Hi. replace (S b0 + i)%nat with (b0 + S i)%nat by lia.
           apply H. cbn; lia.
      * intros i Hi Hf tx sg Hin. apply in_app_or in Hin as [Hin|Hin].
        -- exists 0%nat. split; [lia|]. now apply F3 in Hin as [-> _].
        -- destruct i as [|i].
           ++ destruct (proj1 F1 eq_refl) as (k & Hk & Hs).
              rewrite Nat.add_0_r in Hf. rewrite Hf in Hs by exact Hk. discriminate.
           ++ replace (b0 + S i)%nat with (S b0 + i)%nat in Hf by lia.
              destruct (I3 i ltac:(cbn in Hi; lia) Hf tx sg Hin) as (j & Hj & ->).
              exists (S j). split; [lia|reflexivity].
    + split; [split; [discriminate|]|split; [exact F2|]].
      * intros H. destruct (H 0%nat ltac:(cbn; lia)) as (k & Hk & Hs).
        rewrite Nat.add_0_r in Hs.
        assert (Err m = Ok tt) as E by (apply F1; eauto). discriminate.
      * intros i Hi Hf tx sg Hin. exists 0%nat. split; [lia|].
        now apply F3 in Hin as [-> _].
Qed.

(** X5: a provisioning run [_create] resolves exactly when every batch has
    one of its first three submissions confirmed; otherwise it rejects with
    "Couldn't confirm transaction"; and once a batch has failed all three
    attempts, no later batch is ever submitted. *)
Theorem create_outcomes (send : nat -> nat -> bool) (seed : nat) (bp : PublicKey)
    (payer : Keypair) (cs : AccountCosts) (P : nat) :
  let calls := create_batches P (getFeePayers P) (new_keypairs seed P) in
  let '(evs, r) := _create send seed bp payer cs P in
  ((exists cfg, r = Ok cfg) <->
   forall b, (b < List.length calls)%nat -> exists k, (k < 3)%nat /\ send b k = true) /\
  (forall m, r = Err m -> m = "Couldn't confirm transaction") /\
  (forall b, (b < List.length calls)%nat -> (forall k, (k < 3)%nat -> send b k = false) ->
   forall tx sg, In (EvSend tx sg) evs ->
   exists j, (j <= b)%nat /\
             tx = nth j (batch_txs payer bp cs (calculateProgrampace P) calls) []).
Proof.
  intros calls.
  assert (Hall : Forall (fun c => List.length (fst c) = List.length (snd c)) calls).
  { apply Forall_forall. intros c Hc.
    apply (create_loop_same_length P P 0 (getFeePayers P) (new_keypairs seed P));
      [now rewrite getFeePayers_length, new_keypairs_length | exact Hc]. }
  pose proof (run_batches_facts send bp payer cs (calculateProgrampace P) calls 0 Hall)
    as F.
  unfold _create. fold calls.
  destruct (run_batches send bp payer cs (calculateProgrampace P) 0 calls)
    as [evs r] eqn:E.
  destruct F as (F1 & F2 & F3).
  destruct r as [[]|m].
  - split; [split; [intros _; apply F1; reflexivity|intros _; eexists; reflexivity]|].
    split; [discriminate|]. exact F3.
  - split; [split; [intros [cfg Hc]; discriminate|]|split].
    + intros H. assert (Err m = Ok tt) by (apply F1; exact H). discriminate.
    + intros m' Hm. injection Hm as <-. now apply F2.
    + exact F3.
Qed.

Lemma close_balances_some (getBalance : PublicKey -> option Z) (l : list Keypair) :
  (forall k, In k l -> getBalance (publicKey k) <> None) ->
  fold_right (fun k acc => match getBalance (publicKey k), acc with
                           | Some b, Some bs => Some (b :: bs)
                           | _, _ => None
                           end) (Some []) l = Some (map (balance_of getBalance) l).
Proof.
  induction l as [|k l IH]; intros H; [reflexivity|].
  cbn [fold_right map]. rewrite IH by (intros k' Hk'; apply H; now right).
  unfold balance_of. destruct (getBalance (publicKey k)) eqn:E; [reflexivity|].
  exfalso; exact (H k (or_introl eq_refl) E).
Qed.

Lemma close_balances_none (getBalance : PublicKey -> option Z) (l : list Keypair) :
  (exists k, In k l /\ getBalance (publicKey k) = None) ->
  fold_right (fun k acc => match getBalance (publicKey k), acc with
                           | Some b, Some bs => Some (b :: bs)
                           | _, _ => None
                           end) (Some []) l = None.
Proof.
  induction l as [|k l IH]; intros (k' & Hin & Hn); [destruct Hin|].
  cbn [fold_right]. destruct Hin as [->|Hin].
  - now rewrite Hn.
  - rewrite IH by eauto. now destruct (getBalance (publicKey k)).
Qed.

Lemma map_combine_map {A B C} (g : A -> B -> C) (f : A -> B) (l : list A) :
  map (fun '(k, b) => g k b) (combine l (map f l)) = map (fun k => g k (f k)) l.
Proof. induction l as [|k l IH]; cbn; [reflexivity|]. now rewrite IH. Qed.

(** X6: [_close] submits nothing and rejects when a fee payer's balance
    query fails.  When every query answers, it submits exactly one
    transaction: in fee-payer order, a transfer of each fee payer's whole
    balance to the payer, signed by the payer and all fee payers; it
    resolves if that submission is confirmed and rejects otherwise. *)
Theorem close_transaction (getBalance : PublicKey -> option Z) (ok : bool)
    (payer : Keypair) (P : nat) :
  ((exists k, In k (getFeePayers P) /\ getBalance (publicKey k) = None) ->
   fst (_close getBalance ok payer P) = [] /\
   exists m, snd (_close getBalance ok payer P) = Err m) /\
  ((forall k, In k (getFeePayers P) -> getBalance (publicKey k) <> None) ->
   fst (_close getBalance ok payer P) =
     [EvSend (map (fun k => Transfer (publicKey k) (publicKey payer)
                               (balance_of getBalance k)) (getFeePayers P))
             (payer :: getFeePayers P)] /\
   (ok = true -> snd (_close getBalance ok payer P) = Ok tt) /\
   (ok = false -> exists m, snd (_close getBalance ok payer P) = Err m)).
Proof.
  unfold _close. split.
  - intros Hn. rewrite close_balances_none by exact Hn.
    split; [reflexivity|eexists; reflexivity].
  - intros Hs. rewrite close_balances_some by exact Hs.
    rewrite (map_combine_map (fun k b => Transfer (publicKey k) (publicKey payer) b)).
    destruct ok; cbn [fst snd]; repeat split; try reflexivity; try discriminate; eauto.
Qed.

(* ------------------------------------------------------------------ *)
(** ** Provider invariants *)

Lemma status_lock_step (w w' : World) :
  step w w' ->
  ((status (w_st w) = creating \/ status (w_st w) = closing) ->
   creationLock (w_st w) = true) /\
  (status (w_st w) = active -> config (w_st w) <> None) ->
  ((status (w_st w') = creating \/ status (w_st w') = closing) ->
   creationLock (w_st w') = true) /\
  (status (w_st w') = active -> config (w_st w') <> None).
Proof.
  intros Hs [I1 I2]; destruct Hs; cbn [w_st] in *.
  - apply create_call_started in H as (_ & _ & ->). cbn.
    split; [reflexivity|discriminate].
  - destruct r as [cfg|m]; cbn; split; intros H'; try discriminate;
      destruct H'; discriminate.
  - apply close_call_started in H as (_ & _ & _ & _ & ->). cbn.
    split; [reflexivity|discriminate].
  - cbn. split; intros H'; try discriminate; destruct H'; discriminate.
  - unfold deactivate. destruct (creationLock st) eqn:E; [now split|].
    cbn. split; intros H'; try discriminate; destruct H'; discriminate.
  - unfold cost_effect. destruct (connection env'); cbn;
      split; intros H'; try discriminate; destruct H'; discriminate.
  - now split.
  - unfold cost_settle. destruct (Nat.eqb (calculationCounter st) g); [|now split].
    destruct (status st) eqn:Es; cbn; rewrite ?Es in *; auto.
    split; intros H'; try discriminate; destruct H'; discriminate.
Qed.

(** X7: in every reachable state of the provider, status [creating] or
    [closing] means the lock is held, and status [active] means a pool
    config is present. *)
Theorem status_lock_invariant (env0 : Env) (w : World) :
  reachable env0 w ->
  ((status (w_st w) = creating \/ status (w_st w) = closing) ->
   creationLock (w_st w) = true) /\
  (status (w_st w) = active -> config (w_st w) <> None).
Proof.
  unfold reachable. intros H. apply clos_rt_rtn1_iff in H.
  induction H as [|w1 w2 Hs _ IH].
  - cbn. split; intros H; try discriminate; destruct H; discriminate.
  - exact (status_lock_step w1 w2 Hs IH).
Qed.

Lemma status_lock_invariant_witness :
  reachable env_ok (closing_world env_ok) /\
  creationLock (w_st (closing_world env_ok)) = true.
Proof.
  assert (Hr : reachable env_ok (closing_world env_ok))
    by exact (proj2 (idle_world_reachable env_ok eq_refl eq_refl)).
  split; [exact Hr|].
  apply (proj1 (status_lock_invariant env_ok _ Hr)). right; reflexivity.
Defined.

Lemma costs_kept_step (w w' : World) :
  step w w' -> costs (w_st w) <> None -> costs (w_st w') <> None.
Proof.
  intros Hs Hc; destruct Hs; cbn [w_st] in *.
  - now apply create_call_started in H as (_ & _ & ->).
  - now destruct r.
  - now apply close_call_started in H as (_ & _ & _ & _ & ->).
  - exact Hc.
  - unfold deactivate. now destruct (creationLock st).
  - unfold cost_effect. now destruct (connection env').
  - exact Hc.
  - unfold cost_settle. destruct (Nat.eqb (calculationCounter st) g); cbn;
      [discriminate|exact Hc].
Qed.

(** X8: once the costs are known they stay known, whatever happens later
    (a new generation included), so [create] never again throws
    "Calculating costs". *)
Theorem costs_kept (w w' : World) :
  clos_refl_trans World step w w' -> costs (w_st w) <> None ->
  costs (w_st w') <> None /\ create_call (w_env w') (w_st w') <> Threw "Calculating costs".
Proof.
  intros H Hc.
  assert (Hc' : costs (w_st w') <> None).
  { induction H as [w w' Hs|w|w1 w2 w3 _ IH1 _ IH2].
    - exact (costs_kept_step w w' Hs Hc).
    - exact Hc.
    - exact (IH2 (IH1 Hc)). }
  split; [exact Hc'|].
  unfold create_call.
  destruct (connection (w_env w')); [|discriminate].
  destruct (breakProgramId (w_env w')); [|discriminate].
  destruct (wallet (w_env w')); [|discriminate].
  destruct (costs (w_st w')); [|congruence].
  destruct (creationLock (w_st w')); [discriminate|].
  destruct (Status_eqb (status (w_st w')) inactive); discriminate.
Qed.

Lemma costs_kept_witness :
  step (idle_world env_ok)
       {| w_env := env_ok8; w_st := fst (cost_effect env_ok8 (w_st (idle_world env_ok)));
          w_pending := [PCost 2] |} /\
  create_call env_ok8 (fst (cost_effect env_ok8 (w_st (idle_world env_ok)))) <>
    Threw "Calculating costs".
Proof.
  assert (Hs : step (idle_world env_ok)
       {| w_env := env_ok8; w_st := fst (cost_effect env_ok8 (w_st (idle_world env_ok)));
          w_pending := [PCost 2] |}).
  { eapply step_eq; [apply (step_effect env_ok env_ok8)|reflexivity]. }
  split; [exact Hs|].
  exact (proj2 (costs_kept _ _ (rt_step _ _ _ _ Hs) ltac:(discriminate))).
Defined.

Lemma remove_one_In (p x : Pending) (ps : list Pending) :
  In x (remove_one p ps) -> In x ps.
Proof.
  induction ps as [|q ps IH]; cbn; [auto|].
  destruct (Pending_eqb p q); [auto|]. intros [->|H]; auto.
Qed.

Lemma count_cost_remove (n : nat) (p : Pending) (ps : list Pending) :
  (count_cost n (remove_one p ps) <= count_cost n ps)%nat.
Proof.
  unfold count_cost. induction ps as [|q ps IH]; cbn [remove_one]; [cbn; lia|].
  destruct (Pending_eqb p q); cbn [filter];
    destruct (Pending_eqb (PCost n) q); cbn [List.length]; lia.
Qed.

Lemma count_cost_fresh (n : nat) (ps : list Pending) :
  (forall g, In (PCost g) ps -> (g < n)%nat) -> count_cost n ps = 0%nat.
Proof.
  unfold count_cost. induction ps as [|q ps IH]; intros H; [reflexivity|].
  cbn [filter]. destruct q as [| |m]; cbn [Pending_eqb];
    [now apply IH; intros g Hg; apply H; right
    |now apply IH; intros g Hg; apply H; right|].
  destruct (Nat.eqb_spec n m).
  - subst. specialize (H m (or_introl eq_refl)). lia.
  - now apply IH; intros g Hg; apply H; right.
Qed.

Lemma cost_inv_step (w w' : World) : step w w' -> cost_inv w -> cost_inv w'.
Proof.
  unfold cost_inv. intros Hs [I1 I2]; destruct Hs; cbn [w_st w_pending] in *.
  - apply create_call_started in H as (_ & _ & ->). cbn.
    split; [intros g [E|Hg]; [discriminate|auto]|exact I2].
  - assert (calculationCounter (fst (create_settle r st)) = calculationCounter st)
      as -> by (now destruct r).
    split; [intros g Hg; apply I1; exact (remove_one_In _ _ _ Hg)|].
    pose proof (count_cost_remove (calculationCounter st) PCreate ps). lia.
  - apply close_call_started in H as (_ & _ & _ & _ & ->). cbn.
    split; [intros g [E|Hg]; [discriminate|auto]|exact I2].
  - cbn. split; [intros g Hg; apply I1; exact (remove_one_In _ _ _ Hg)|].
    pose proof (count_cost_remove (calculationCounter st) PClose ps). lia.
  - assert (calculationCounter (deactivate st) = calculationCounter st)
      as -> by (unfold deactivate; now destruct (creationLock st)).
    now split.
  - assert (Hz : count_cost (S (calculationCounter st)) ps = 0%nat)
      by (apply count_cost_fresh; intros g Hg; specialize (I1 g Hg); lia).
    unfold cost_effect. destruct (connection env');
      cbn [fst snd set_config set_status set_counter calculationCounter].
    + split.
      * intros g [E|Hg]; [injection E as <-; lia|specialize (I1 g Hg); lia].
      * unfold count_cost in *. cbn [filter]. cbn [Pending_eqb]. rewrite Nat.eqb_refl.
        cbn [List.length]. lia.
    + split; [intros g Hg; specialize (I1 g Hg); lia|lia].
  - now split.
  - assert (calculationCounter (cost_settle g c st) = calculationCounter st) as ->.
    { unfold cost_settle. now destruct (Nat.eqb (calculationCounter st) g). }
    split; [intros g' Hg; apply I1; exact (remove_one_In _ _ _ Hg)|].
    pose proof (count_cost_remove (calculationCounter st) (PCost g) ps). lia.
Qed.

(** X9: in every reachable state, no cost computation in flight carries a
    tag above the counter, and at most one carries the current value; so
    per generation at most one result is ever stored. *)
Theorem cost_computations_inflight (env0 : Env) (w : World) :
  reachable env0 w ->
  (forall g, In (PCost g) (w_pending w) -> (g <= calculationCounter (w_st w))%nat) /\
  (count_cost (calculationCounter (w_st w)) (w_pending w) <= 1)%nat.
Proof.
  unfold reachable. intros H. apply clos_rt_rtn1_iff in H.
  change (cost_inv w).
  induction H as [|w1 w2 Hs _ IH].
  - split; [intros g []|cbn; lia].
  - exact (cost_inv_step w1 w2 Hs IH).
Qed.

(** After mount and a parallelization change, two computations are in
    flight (generations 1 and 2); only generation 2 is current. *)
Lemma cost_computations_inflight_witness :
  let w := {| w_env := env_ok8;
              w_st := fst (cost_effect env_ok8 (fst (cost_effect env_ok initial_state)));
              w_pending := [PCost 2; PCost 1] |} in
  reachable env_ok w /\
  calculationCounter (w_st w) = 2%nat /\
  (1 <= calculationCounter (w_st w))%nat /\
  (2 <= calculationCounter (w_st w))%nat /\
  count_cost (calculationCounter (w_st w)) (w_pending w) = 1%nat.
Proof.
  intros w.
  assert (Hr : reachable env_ok w).
  { eapply reach_next.
    - eapply reach_next; [apply rt_refl|].
      eapply step_eq; [apply (step_effect env_ok env_ok initial_state [])|reflexivity].
    - eapply step_eq; [apply (step_effect env_ok env_ok8)|reflexivity]. }
  destruct (cost_computations_inflight env_ok w Hr) as [Hle _].
  split; [exact Hr|]. split; [reflexivity|].
  split; [apply Hle; right; left; reflexivity|].
  split; [apply Hle; left; reflexivity|].
  vm_compute. reflexivity.
Defined.
